(** * fits_align.imgcat: the per-image catalog and its quad escalation

    A shallow embedding of [src/fits_align/imgcat.py] (class [ImgCat]):
    the constructor, [makestarlist] and [makemorequads].

    The sibling modules [star] and [quad] that [imgcat.py] imports are
    represented by two records of operations ([StarOps], [QuadOps]);
    [ImgCat]'s methods are written once, over any implementation of them.
    Where a property depends on what such an operation returns, the
    operation is modelled from the design document and named [spec_*]. *)

From Stdlib Require Import ZArith List Bool Lia String Ascii Floats.
From Stdlib Require Import Sorted Permutation.
Import ListNotations.

Local Open Scope Z_scope.
#[local] Set Warnings "-inexact-float".

(** ** Python values *)

(** A Python call returns a value or raises; an exception is named by
    its class. *)
Definition exn := string.

Inductive outcome (A : Type) : Type :=
| Returned (a : A)
| Raised (e : exn).
Arguments Returned {A} a.
Arguments Raised {A} e.

(** The builtin [min(a, b)] on two floats: the first argument is kept
    unless the second compares strictly below it. *)
Definition pymin (a b : float) : float :=
  if PrimFloat.ltb b a then b else a.

(** The slice [l[:n]] of a list, for any integer [n]: a negative bound
    counts from the end. *)
Definition slice_to {A : Type} (l : list A) (n : Z) : list A :=
  if 0 <=? n then firstn (Z.to_nat n) l
  else firstn (Z.to_nat (Z.of_nat (List.length l) + n)) l.

(** ** Data model *)

(** Modelled from the spec: the [Star] record of [star.py], which is not
    part of the sources at hand (position, flux, quality flag). *)
Record Star : Type := mkStar {
  x : float;
  y : float;
  flux : float;
  flag : Z
}.

(** Modelled from the spec: the [Quad] record of [quad.py]: its member
    stars and its invariant descriptor. *)
Record Quad : Type := mkQuad {
  stars : list Star;
  hash : list float
}.

(** A raw catalog is an ordered collection of detections. *)
Definition Catalog := list Star.

Definition box : Type := float * float * float * float.

(** The attributes [ImgCat.__init__] creates. *)
Record ImgCat : Type := mkImgCat {
  filepath : string;
  name : string;
  hdu : Z;
  cat : option Catalog;
  starlist : list Star;
  mindist : float;
  xlim : float * float;
  ylim : float * float;
  quadlist : list Quad;
  quadlevel : Z
}.

Definition set_starlist (c : ImgCat) (v : list Star) : ImgCat :=
  mkImgCat (filepath c) (name c) (hdu c) (cat c) v (mindist c)
           (xlim c) (ylim c) (quadlist c) (quadlevel c).

Definition set_mindist (c : ImgCat) (v : float) : ImgCat :=
  mkImgCat (filepath c) (name c) (hdu c) (cat c) (starlist c) v
           (xlim c) (ylim c) (quadlist c) (quadlevel c).

Definition set_xlim (c : ImgCat) (v : float * float) : ImgCat :=
  mkImgCat (filepath c) (name c) (hdu c) (cat c) (starlist c) (mindist c)
           v (ylim c) (quadlist c) (quadlevel c).

Definition set_ylim (c : ImgCat) (v : float * float) : ImgCat :=
  mkImgCat (filepath c) (name c) (hdu c) (cat c) (starlist c) (mindist c)
           (xlim c) v (quadlist c) (quadlevel c).

Definition set_quadlist (c : ImgCat) (v : list Quad) : ImgCat :=
  mkImgCat (filepath c) (name c) (hdu c) (cat c) (starlist c) (mindist c)
           (xlim c) (ylim c) v (quadlevel c).

Definition set_quadlevel (c : ImgCat) (v : Z) : ImgCat :=
  mkImgCat (filepath c) (name c) (hdu c) (cat c) (starlist c) (mindist c)
           (xlim c) (ylim c) (quadlist c) v.

(** ** The imported modules, as interfaces *)

(** The three functions of [star] that [makestarlist] calls, with the
    arguments it passes.  [readsexcat] takes its catalog and, as a keyword
    that may be left out, [maxflag]; reading a catalog and measuring its
    area may raise. *)
Record StarOps : Type := mkStarOps {
  readsexcat : option Catalog -> option Z -> outcome (list Star);
  sortstarlistbyflux : list Star -> list Star;
  area : list Star -> float -> outcome box
}.

(** The three functions of [quad] that [makemorequads] calls.  The
    generators take the star list and the keywords [n], [d] (and [f], and
    [s] when it is passed); they are pure. *)
Record QuadOps : Type := mkQuadOps {
  makequads1 : list Star -> Z -> float -> list Quad;
  makequads2 : list Star -> Z -> Z -> option Z -> float -> list Quad;
  removeduplicates : list Quad -> list Quad
}.

(** ** [ImgCat.makemorequads] *)

Section MakeMoreQuads.

Variable Q : QuadOps.

(** The tail shared by the five generating branches: the batch has been
    appended by [extend]; the whole list is deduplicated and the level
    advances. *)
Definition extend_then_finish (c : ImgCat) (batch : list Quad) : bool * ImgCat :=
  let c1 := set_quadlist c (quadlist c ++ batch) in
  let c2 := set_quadlist c1 (removeduplicates Q (quadlist c1)) in
  (true, set_quadlevel c2 (quadlevel c2 + 1)).

Definition makemorequads (c : ImgCat) : bool * ImgCat :=
  if quadlevel c =? 0 then
    extend_then_finish c (makequads1 Q (starlist c) 7 (mindist c))
  else if quadlevel c =? 1 then
    extend_then_finish c (makequads2 Q (starlist c) 3 5 None (mindist c))
  else if quadlevel c =? 2 then
    extend_then_finish c (makequads2 Q (starlist c) 6 5 None (mindist c))
  else if quadlevel c =? 3 then
    extend_then_finish c (makequads2 Q (starlist c) 12 5 None (mindist c))
  else if quadlevel c =? 4 then
    extend_then_finish c (makequads2 Q (starlist c) 10 6 (Some 3) (mindist c))
  else
    (false, c).

(** [k] calls in a row, the return values dropped. *)
Fixpoint escalate (k : nat) (c : ImgCat) : ImgCat :=
  match k with
  | O => c
  | S k' => escalate k' (snd (makemorequads c))
  end.

(** The parameter table of section 4.4, level by level: the batch the
    generator yields when the catalog stands at level [L]. *)
Definition level_batch (L : Z) (c : ImgCat) : list Quad :=
  match L with
  | 0 => makequads1 Q (starlist c) 7 (mindist c)
  | 1 => makequads2 Q (starlist c) 3 5 None (mindist c)
  | 2 => makequads2 Q (starlist c) 6 5 None (mindist c)
  | 3 => makequads2 Q (starlist c) 12 5 None (mindist c)
  | 4 => makequads2 Q (starlist c) 10 6 (Some 3) (mindist c)
  | _ => []
  end.

End MakeMoreQuads.

(** ** [ImgCat.makestarlist] *)

Section MakeStarList.

Variable St : StarOps.

Definition makestarlist (c : ImgCat) (skipsaturated : bool) (n : Z)
  : ImgCat * outcome unit :=
  let maxflag := if skipsaturated then 3 else 7 in
  match readsexcat St (cat c) None with
  | Raised e => (c, Raised e)
  | Returned raw =>
    let c1 := set_starlist c (slice_to (sortstarlistbyflux St raw) n) in
    match area St (starlist c1) 0.01%float with
    | Raised e => (c1, Raised e)
    | Returned (xmin, xmax, ymin, ymax) =>
      let c2 := set_xlim c1 (xmin, xmax) in
      let c3 := set_ylim c2 (ymin, ymax) in
      (set_mindist c3
         (pymin (pymin (xmax - xmin) (ymax - ymin) / 10) 30)%float,
       Returned tt)
    end
  end.

End MakeStarList.

(** ** [ImgCat.__init__] *)

(** [s.rfind(ch)]: the index of the last occurrence, [-1] when there is
    none.  [i] is the index of the head of [s], [last] the answer so far. *)
Fixpoint rfind_from (ch : ascii) (s : string) (i last : Z) : Z :=
  match s with
  | EmptyString => last
  | String c r => rfind_from ch r (i + 1) (if Ascii.eqb c ch then i else last)
  end.

Definition rfind (ch : ascii) (s : string) : Z := rfind_from ch s 0 (-1).

(** The slices [s[:i]] and [s[i:]] for an index [i >= 0]. *)
Fixpoint str_take (n : nat) (s : string) : string :=
  match n, s with
  | O, _ => EmptyString
  | _, EmptyString => EmptyString
  | Datatypes.S n', String c r => String c (str_take n' r)
  end.

Fixpoint str_drop (n : nat) (s : string) : string :=
  match n, s with
  | O, _ => s
  | _, EmptyString => EmptyString
  | Datatypes.S n', String _ r => str_drop n' r
  end.

Definition str_to (s : string) (i : Z) : string := str_take (Z.to_nat i) s.
Definition str_from (s : string) (i : Z) : string := str_drop (Z.to_nat i) s.

(** [ch in s]. *)
Fixpoint occurs (ch : ascii) (s : string) : bool :=
  match s with
  | EmptyString => false
  | String c r => Ascii.eqb c ch || occurs ch r
  end.

(** [s == ch * len(s)]: every character of [s] is [ch]. *)
Fixpoint all_char (ch : ascii) (s : string) : bool :=
  match s with
  | EmptyString => true
  | String c r => Ascii.eqb c ch && all_char ch r
  end.

(** [s.rstrip(ch)]. *)
Fixpoint rstrip (ch : ascii) (s : string) : string :=
  match s with
  | EmptyString => EmptyString
  | String c r =>
    match rstrip ch r with
    | EmptyString => if Ascii.eqb c ch then EmptyString else String c EmptyString
    | r' => String c r'
    end
  end.

Definition str_empty (s : string) : bool :=
  match s with EmptyString => true | _ => false end.

Definition sep : ascii := "/"%char.
Definition extsep : ascii := "."%char.

(** [os.path.split] (POSIX): everything after the last slash is the tail;
    the head loses its trailing slashes unless it is all slashes. *)
Definition os_path_split (p : string) : string * string :=
  let i := rfind sep p + 1 in
  let head := str_to p i in
  let tail := str_from p i in
  if negb (str_empty head) && negb (all_char sep head)
  then (rstrip sep head, tail)
  else (head, tail).

(** [os.path.splitext] (POSIX): the extension starts at the last dot of
    the last component, provided some character other than a dot comes
    before it in that component. *)
Definition os_path_splitext (p : string) : string * string :=
  let sepIndex := rfind sep p in
  let dotIndex := rfind extsep p in
  if dotIndex >? sepIndex then
    let leading := str_to (str_from p (sepIndex + 1)) (dotIndex - (sepIndex + 1)) in
    if negb (all_char extsep leading)
    then (str_to p dotIndex, str_from p dotIndex)
    else (p, EmptyString)
  else (p, EmptyString).

(** [ImgCat(filepath, hdu, cat)]. *)
Definition init (path : string) (h : Z) (mycat : option Catalog) : ImgCat :=
  let '(imgdir, filename) := os_path_split path in
  let '(common, ext) := os_path_splitext filename in
  {| filepath := path;
     name := common;
     hdu := h;
     cat := mycat;
     starlist := [];
     mindist := 0%float;
     xlim := (0%float, 0%float);
     ylim := (0%float, 0%float);
     quadlist := [];
     quadlevel := 0 |}.

(** ** The [star] module, from the design document *)

(** Modelled from the spec: [star.readsexcat], absent from the sources at
    hand: the filtering step of section 4.1.  It keeps the detections
    whose quality flag does not exceed [maxflag], and fails with
    [EmptyCatalog] when none is left.  The threshold it applies when the
    caller passes no [maxflag] is given nowhere; it is the parameter
    [own_maxflag].  A catalog that was never made cannot be iterated. *)
Definition spec_readsexcat (own_maxflag : Z)
  (mycat : option Catalog) (maxflag : option Z) : outcome (list Star) :=
  match mycat with
  | None => Raised "TypeError"%string
  | Some rows =>
    let m := match maxflag with Some m => m | None => own_maxflag end in
    match filter (fun s => flag s <=? m) rows with
    | [] => Raised "EmptyCatalog"%string
    | usable => Returned usable
    end
  end.

(** Modelled from the spec: [star.sortstarlistbyflux], absent from the
    sources at hand: descending flux, ties in catalog order (stable).
    [insert_by_flux] places a star in front of the first one that is not
    strictly brighter. *)
Fixpoint insert_by_flux (s : Star) (l : list Star) : list Star :=
  match l with
  | [] => [s]
  | h :: t =>
    if PrimFloat.ltb (flux s) (flux h) then h :: insert_by_flux s t
    else s :: h :: t
  end.

Fixpoint spec_sortstarlistbyflux (l : list Star) : list Star :=
  match l with
  | [] => []
  | s :: r => insert_by_flux s (spec_sortstarlistbyflux r)
  end.

Definition pymax (a b : float) : float :=
  if PrimFloat.ltb a b then b else a.

(** One axis of the bounding box: the extent grows by [border] times its
    span on either side; an extent of no width is widened to a span of 1
    about its centre. *)
Definition expand_axis (lo hi border : float) : float * float :=
  let span := (hi - lo)%float in
  let lo' := (lo - border * span)%float in
  let hi' := (hi + border * span)%float in
  if PrimFloat.ltb lo' hi' then (lo', hi')
  else ((lo - 0.5)%float, (hi + 0.5)%float).

(** Modelled from the spec: [star.area], absent from the sources at hand:
    the extent of the stars in x and y, expanded by the border fraction,
    never of zero area.  The design document leaves the default span
    open; it is 1 here, and the unit box stands for an empty list. *)
Definition spec_area (l : list Star) (border : float) : outcome box :=
  match l with
  | [] => Returned (0, 1, 0, 1)%float
  | s :: r =>
    let xmin := fold_left pymin (map x r) (x s) in
    let xmax := fold_left pymax (map x r) (x s) in
    let ymin := fold_left pymin (map y r) (y s) in
    let ymax := fold_left pymax (map y r) (y s) in
    let '(x0, x1) := expand_axis xmin xmax border in
    let '(y0, y1) := expand_axis ymin ymax border in
    Returned (x0, x1, y0, y1)
  end.

(** A [star] module to run the model on concrete catalogs; its reading
    filters at 7 when no threshold is passed. *)
Definition spec_star : StarOps :=
  mkStarOps (spec_readsexcat 7) spec_sortstarlistbyflux spec_area.

(** ** The [quad] module, from the design document *)

(** Two stars are the same detection when all their attributes agree. *)
Definition star_eqb (a b : Star) : bool :=
  PrimFloat.Leibniz.eqb (x a) (x b) && PrimFloat.Leibniz.eqb (y a) (y b)
  && PrimFloat.Leibniz.eqb (flux a) (flux b) && (flag a =? flag b).

Definition star_in (s : Star) (l : list Star) : bool := existsb (star_eqb s) l.

(** Two quads are duplicates iff their member stars are equal as sets. *)
Definition same_members (q1 q2 : Quad) : bool :=
  forallb (fun s => star_in s (stars q2)) (stars q1)
  && forallb (fun s => star_in s (stars q1)) (stars q2).

Definition seen_before (q : Quad) (seen : list Quad) : bool :=
  existsb (same_members q) seen.

(** Modelled from the spec: [quad.removeduplicates], absent from the
    sources at hand: one quad per distinct member-star set, in first-seen
    order.  [seen] holds the quads kept so far. *)
Fixpoint dedup_against (seen l : list Quad) : list Quad :=
  match l with
  | [] => []
  | q :: r =>
    if seen_before q seen then dedup_against seen r
    else q :: dedup_against (q :: seen) r
  end.

Definition spec_removeduplicates (l : list Quad) : list Quad :=
  dedup_against [] l.

(** A quad module whose deduplicator is the one of the design document,
    for any pair of generators. *)
Definition spec_quad
  (mq1 : list Star -> Z -> float -> list Quad)
  (mq2 : list Star -> Z -> Z -> option Z -> float -> list Quad) : QuadOps :=
  mkQuadOps mq1 mq2 spec_removeduplicates.

(** No two quads of the list have the same member stars. *)
Definition quads_unique (l : list Quad) : Prop :=
  ForallOrdPairs (fun a b => same_members a b = false) l.

(** A small pair of generators, to run the model on concrete catalogs:
    every star with its three successors among the first [n] stars (after
    skipping [s] of them). *)
Fixpoint chain_quads (l : list Star) : list Quad :=
  match l with
  | [] => []
  | a :: r =>
    match r with
    | b :: c :: d :: _ => mkQuad [a; b; c; d] [] :: chain_quads r
    | _ => []
    end
  end.

Definition chain_quads1 (l : list Star) (n : Z) (d : float) : list Quad :=
  chain_quads (slice_to l n).

Definition chain_quads2 (l : list Star) (f n : Z) (s : option Z) (d : float)
  : list Quad :=
  let skip := match s with Some k => Z.to_nat k | None => O end in
  chain_quads (slice_to (skipn skip l) n).

Definition chain_quad : QuadOps := spec_quad chain_quads1 chain_quads2.

(** Six detections on a line, of falling flux, one of them blended. *)
Definition star_at (px fl : float) (fg : Z) : Star := mkStar px 0 fl fg.

Definition six_stars : Catalog :=
  [ star_at 10 600 0; star_at 20 500 0; star_at 30 400 5;
    star_at 40 300 0; star_at 50 200 0; star_at 60 100 0 ]%float.

Definition six_fresh : ImgCat := init "/data/six.fits" 0 (Some six_stars).

Definition six_img : ImgCat := fst (makestarlist spec_star six_fresh false 200).

(** ** [ImgCat.makecat] *)

(** [astropy.io.fits.open], as [makecat] uses it: the HDUs of the file at
    a path, each with its [data] (which may be [None]); opening a file
    may raise. *)
Definition FitsOpen : Type := string -> outcome (list (option Catalog)).

Definition set_cat (c : ImgCat) (v : option Catalog) : ImgCat :=
  mkImgCat (filepath c) (name c) (hdu c) v (starlist c) (mindist c)
           (xlim c) (ylim c) (quadlist c) (quadlevel c).

Section MakeCat.

Variable fits_open : FitsOpen.

(** [hdu[2]] raises [IndexError] on a file of fewer than three HDUs. *)
Definition makecat (c : ImgCat) (rerun keepcat verbose : bool)
  : ImgCat * outcome unit :=
  match fits_open (filepath c) with
  | Raised e => (c, Raised e)
  | Returned hdus =>
    match nth_error hdus 2 with
    | None => (c, Raised "IndexError"%string)
    | Some data => (set_cat c data, Returned tt)
    end
  end.

End MakeCat.

(** ** Sequences of method calls *)

(** The three state-changing methods, with their arguments. *)
Inductive call : Type :=
| CallMakecat (rerun keepcat verbose : bool)
| CallMakestarlist (skipsaturated : bool) (n : Z)
| CallMakemorequads.

Section Run.

Variable St : StarOps.
Variable Q : QuadOps.
Variable fits_open : FitsOpen.

(** One call on a catalog; the caller goes on with the object as the
    method left it, whether it returned or raised. *)
Definition perform (c : ImgCat) (k : call) : ImgCat :=
  match k with
  | CallMakecat r kc v => fst (makecat fits_open c r kc v)
  | CallMakestarlist s n => fst (makestarlist St c s n)
  | CallMakemorequads => snd (makemorequads Q c)
  end.

Definition run (calls : list call) (c : ImgCat) : ImgCat :=
  fold_left perform calls c.

End Run.

Definition is_escalation (k : call) : bool :=
  match k with CallMakemorequads => true | _ => false end.

(** A [star] module whose [area] has no answer for an empty list. *)
Definition strict_area (l : list Star) (border : float) : outcome box :=
  match l with
  | [] => Raised "ValueError"%string
  | _ => spec_area l border
  end.

Definition strict_star : StarOps :=
  mkStarOps (spec_readsexcat 7) spec_sortstarlistbyflux strict_area.

(** A file system of one FITS file, its catalog in the third HDU. *)
Definition one_file : FitsOpen :=
  fun path =>
    if String.eqb path "/data/six.fits"
    then Returned [None; None; Some six_stars]
    else Raised "FileNotFoundError"%string.

(** The six-star image, its raw catalog swapped for one with no usable
    detection. *)
Definition six_img_blanked : ImgCat :=
  set_cat six_img (Some [star_at 10 600 9]%float).

(** A directory part: nothing, or text closed by a slash. *)
Definition dir_part (d : string) : Prop :=
  d = EmptyString \/ exists d', d = append d' (String sep EmptyString).

(** What [k] calls of [makemorequads] in a row return, as a caller that
    loops on the return value sees it. *)
Fixpoint escalation_returns (Q : QuadOps) (k : nat) (c : ImgCat) : list bool :=
  match k with
  | O => []
  | Datatypes.S k' =>
    fst (makemorequads Q c)
    :: escalation_returns Q k' (snd (makemorequads Q c))
  end.

(** An image whose only detection has no x position. *)
Definition lost_star_fresh : ImgCat :=
  init "/data/lost.fits" 0 (Some [mkStar nan 0 100 0]%float).

(** ** Predicates the properties are stated with *)

(** A float other than NaN. *)
Definition is_number (a : float) : Prop := Prim2SF a <> S754_nan.

(** [brighter_first p q]: [p] may stand before [q] in a list ranked by
    non-increasing flux. *)
Definition brighter_first (p q : Star) : Prop :=
  PrimFloat.leb (flux q) (flux p) = true.

(** The flux of a detection is a non-negative number. *)
Definition flux_ok (s : Star) : Prop := PrimFloat.leb 0 (flux s) = true.

(** * Properties *)

(** ** The escalation ladder *)

Section Escalation.

Variable Q : QuadOps.

Lemma makemorequads_generating (c : ImgCat) :
  0 <= quadlevel c <= 4 ->
  makemorequads Q c =
  (true,
   set_quadlevel
     (set_quadlist c
        (removeduplicates Q (quadlist c ++ level_batch Q (quadlevel c) c)))
     (quadlevel c + 1)).
Proof.
  intros Hl. unfold makemorequads, extend_then_finish.
  assert (quadlevel c = 0 \/ quadlevel c = 1 \/ quadlevel c = 2
          \/ quadlevel c = 3 \/ quadlevel c = 4) as Hcases by lia.
  destruct Hcases as [E|[E|[E|[E|E]]]];
    unfold set_quadlevel, set_quadlist; cbn [quadlist quadlevel];
    rewrite !E; reflexivity.
Qed.

Lemma makemorequads_exhausted (c : ImgCat) :
  quadlevel c < 0 \/ 5 <= quadlevel c -> makemorequads Q c = (false, c).
Proof.
  intros Hl. unfold makemorequads.
  destruct (Z.eqb_spec (quadlevel c) 0); [lia|].
  destruct (Z.eqb_spec (quadlevel c) 1); [lia|].
  destruct (Z.eqb_spec (quadlevel c) 2); [lia|].
  destruct (Z.eqb_spec (quadlevel c) 3); [lia|].
  destruct (Z.eqb_spec (quadlevel c) 4); [lia|].
  reflexivity.
Qed.

(** The return value tells the two paths apart. *)
Lemma makemorequads_cases (c : ImgCat) :
  (0 <= quadlevel c <= 4
   /\ makemorequads Q c =
      (true,
       set_quadlevel
         (set_quadlist c
            (removeduplicates Q (quadlist c ++ level_batch Q (quadlevel c) c)))
         (quadlevel c + 1)))
  \/ ((quadlevel c < 0 \/ 5 <= quadlevel c)
      /\ makemorequads Q c = (false, c)).
Proof.
  destruct (Z_le_dec 0 (quadlevel c)) as [H0|H0];
    [destruct (Z_le_dec (quadlevel c) 4) as [H4|H4]|].
  - left. split; [lia | apply makemorequads_generating; lia].
  - right. split; [lia | apply makemorequads_exhausted; lia].
  - right. split; [lia | apply makemorequads_exhausted; lia].
Qed.

Lemma makemorequads_level (c : ImgCat) :
  0 <= quadlevel c <= 5 ->
  quadlevel (snd (makemorequads Q c)) = Z.min (quadlevel c + 1) 5.
Proof.
  intros Hl. destruct (Z.eq_dec (quadlevel c) 5) as [E|E].
  - rewrite makemorequads_exhausted by lia. simpl. lia.
  - rewrite makemorequads_generating by lia. simpl. lia.
Qed.

Lemma escalate_level (k : nat) (c : ImgCat) :
  0 <= quadlevel c <= 5 ->
  quadlevel (escalate Q k c) = Z.min (quadlevel c + Z.of_nat k) 5.
Proof.
  revert c. induction k as [|k IH]; intros c Hl.
  - simpl. lia.
  - cbn [escalate]. rewrite IH; rewrite makemorequads_level by assumption; lia.
Qed.

(** C1. From a catalog at level 0 (a fresh one), [k] escalation steps
    leave the level at [min(k, 5)]; and a step taken at level 5 or above,
    for any quad module, returns [False] and hands back the very same
    catalog: level and quad list untouched, no generator consulted.  In
    particular every step after the fifth is such a step. *)
Theorem escalation_saturates (c : ImgCat) (k : nat) :
  quadlevel c = 0 ->
  quadlevel (escalate Q k c) = Z.min (Z.of_nat k) 5
  /\ (forall c', 5 <= quadlevel c' -> makemorequads Q c' = (false, c'))
  /\ ((5 <= k)%nat ->
      makemorequads Q (escalate Q k c) = (false, escalate Q k c)).
Proof.
  intros Hfresh. split; [|split].
  - rewrite escalate_level by lia. rewrite Hfresh. reflexivity.
  - intros c' Hc'. apply makemorequads_exhausted. now right.
  - intros Hk. apply makemorequads_exhausted. right.
    rewrite escalate_level by lia. lia.
Qed.

(** C8. An escalation step, generating or not, leaves the star list,
    [mindist], both axis limits and the name as they were (and the path,
    the HDU and the raw catalog with them). *)
Theorem makemorequads_frame (c : ImgCat) :
  let c' := snd (makemorequads Q c) in
  starlist c' = starlist c /\ mindist c' = mindist c
  /\ xlim c' = xlim c /\ ylim c' = ylim c /\ name c' = name c
  /\ filepath c' = filepath c /\ hdu c' = hdu c /\ cat c' = cat c.
Proof.
  unfold makemorequads, extend_then_finish.
  destruct (quadlevel c =? 0); [cbn; repeat split|].
  destruct (quadlevel c =? 1); [cbn; repeat split|].
  destruct (quadlevel c =? 2); [cbn; repeat split|].
  destruct (quadlevel c =? 3); [cbn; repeat split|].
  destruct (quadlevel c =? 4); cbn; repeat split.
Qed.

End Escalation.

(** ** The deduplicator of the design document *)

Lemma star_eqb_eq (a b : Star) : star_eqb a b = true <-> a = b.
Proof.
  unfold star_eqb. split.
  - intros H. apply andb_prop in H as [H Hf]. apply andb_prop in H as [H Hfl].
    apply andb_prop in H as [Hx Hy].
    apply Leibniz.eqb_spec in Hx, Hy, Hfl. apply Z.eqb_eq in Hf.
    destruct a, b; simpl in *; congruence.
  - intros ->. rewrite Z.eqb_refl.
    rewrite (proj2 (Leibniz.eqb_spec (x b) (x b)) eq_refl).
    rewrite (proj2 (Leibniz.eqb_spec (y b) (y b)) eq_refl).
    rewrite (proj2 (Leibniz.eqb_spec (flux b) (flux b)) eq_refl).
    reflexivity.
Qed.

Lemma star_in_In (s : Star) (l : list Star) : star_in s l = true <-> In s l.
Proof.
  unfold star_in. rewrite existsb_exists. split.
  - intros [t [Ht E]]. apply star_eqb_eq in E. now subst.
  - intros H. exists s. split; [assumption | now apply star_eqb_eq].
Qed.

(** The duplicate test is equality of the member stars as sets. *)
Lemma same_members_spec (q1 q2 : Quad) :
  same_members q1 q2 = true <->
  (forall s, In s (stars q1) <-> In s (stars q2)).
Proof.
  unfold same_members. rewrite andb_true_iff, !forallb_forall. split.
  - intros [H12 H21] s. split; intros Hs.
    + now apply star_in_In, H12.
    + now apply star_in_In, H21.
  - intros H. split; intros s Hs; apply star_in_In; now apply H.
Qed.

Lemma same_members_refl (q : Quad) : same_members q q = true.
Proof. apply same_members_spec. intros s. reflexivity. Qed.

Lemma same_members_sym (q1 q2 : Quad) : same_members q1 q2 = same_members q2 q1.
Proof. unfold same_members. apply andb_comm. Qed.

(** What survives was not seen before, and no two survivors are
    duplicates of each other. *)
Lemma dedup_against_fresh (l seen : list Quad) :
  Forall (fun q => seen_before q seen = false) (dedup_against seen l)
  /\ quads_unique (dedup_against seen l).
Proof.
  revert seen. induction l as [|q r IH]; intros seen; simpl.
  - split; constructor.
  - destruct (seen_before q seen) eqn:Hq.
    + apply IH.
    + destruct (IH (q :: seen)) as [Hfresh Huniq]. split.
      * constructor; [assumption|].
        eapply Forall_impl; [|exact Hfresh].
        intros a Ha. simpl in Ha. now apply orb_false_elim in Ha.
      * constructor; [|assumption].
        eapply Forall_impl; [|exact Hfresh].
        intros a Ha. simpl in Ha. apply orb_false_elim in Ha as [Ha _].
        now rewrite same_members_sym.
Qed.

(** Survivors come from the list, in the order they had there. *)
Lemma dedup_against_incl (l seen : list Quad) (q : Quad) :
  In q (dedup_against seen l) -> In q l.
Proof.
  revert seen. induction l as [|h r IH]; intros seen; simpl; [tauto|].
  destruct (seen_before h seen).
  - intros H. right. now apply (IH seen).
  - intros [H|H]; [now left | right; now apply (IH (h :: seen))].
Qed.

(** Every member set of the list is either already seen or represented
    among the survivors. *)
Lemma dedup_against_covers (l seen : list Quad) (q : Quad) :
  In q l ->
  seen_before q seen = true
  \/ exists q', In q' (dedup_against seen l) /\ same_members q q' = true.
Proof.
  revert seen. induction l as [|h r IH]; intros seen; simpl; [tauto|].
  intros [E|Hin].
  - subst h. destruct (seen_before q seen) eqn:Hq; [now left|].
    right. exists q. split; [now left | apply same_members_refl].
  - destruct (seen_before h seen) eqn:Hh.
    + now apply IH.
    + destruct (IH (h :: seen) Hin) as [Hs|[q' [Hq' E]]].
      * simpl in Hs. apply orb_prop in Hs as [Hs|Hs]; [|now left].
        right. exists h. split; [now left | assumption].
      * right. exists q'. split; [now right | assumption].
Qed.

(** Only the set of quads seen so far matters, not their order. *)
Lemma dedup_against_ext (l s1 s2 : list Quad) :
  (forall q, seen_before q s1 = seen_before q s2) ->
  dedup_against s1 l = dedup_against s2 l.
Proof.
  revert s1 s2. induction l as [|h r IH]; intros s1 s2 Hs; simpl; [reflexivity|].
  rewrite <- (Hs h). destruct (seen_before h s1).
  - now apply IH.
  - f_equal. apply IH. intros q. simpl. now rewrite Hs.
Qed.

Lemma seen_before_app (q : Quad) (s1 s2 : list Quad) :
  seen_before q (s1 ++ s2) = seen_before q s1 || seen_before q s2.
Proof. unfold seen_before. apply existsb_app. Qed.

(** A duplicate-free prefix, none of it seen before, passes through
    whole; the rest is then filtered against it as well. *)
Lemma dedup_against_app (old batch seen : list Quad) :
  quads_unique old ->
  Forall (fun q => seen_before q seen = false) old ->
  dedup_against seen (old ++ batch) = old ++ dedup_against (seen ++ old) batch.
Proof.
  revert seen. induction old as [|h r IH]; intros seen Hu Hf; simpl.
  - now rewrite app_nil_r.
  - inversion Hu as [|? ? Hh Hr]; subst. inversion Hf as [|? ? Hhs Hrs]; subst.
    rewrite Hhs. f_equal. rewrite (IH (h :: seen)); [|assumption|].
    + f_equal. apply dedup_against_ext. intros q.
      change (h :: seen) with ([h] ++ seen).
      change (h :: r) with ([h] ++ r).
      rewrite !seen_before_app. simpl.
      destruct (same_members q h), (seen_before q seen), (seen_before q r);
        reflexivity.
    + rewrite Forall_forall in *. intros q Hq. simpl.
      rewrite (Hrs q Hq), orb_false_r, same_members_sym. now apply Hh.
Qed.

Lemma spec_removeduplicates_app (old batch : list Quad) :
  quads_unique old ->
  spec_removeduplicates (old ++ batch) = old ++ dedup_against old batch.
Proof.
  intros Hu. unfold spec_removeduplicates.
  rewrite dedup_against_app; [reflexivity | assumption |].
  apply Forall_forall. reflexivity.
Qed.

(** C2. At a level [L] from 0 to 4, one escalation step returns [True];
    the new level is [L + 1]; the new quad list is the deduplication of
    the accumulated quads followed by the batch that the generator bound
    to [L] yields, so the batch is filtered against everything gathered
    so far and not only against itself.  With the first-seen deduplicator
    of the design document and an accumulated list free of duplicates,
    that is the old list with the survivors appended, each survivor a
    quad of the batch that duplicates no accumulated quad. *)
Theorem escalation_step (Q : QuadOps) (c : ImgCat) :
  0 <= quadlevel c <= 4 ->
  let batch := level_batch Q (quadlevel c) c in
  exists c',
    makemorequads Q c = (true, c')
    /\ quadlevel c' = quadlevel c + 1
    /\ quadlist c' = removeduplicates Q (quadlist c ++ batch)
    /\ ((forall l, removeduplicates Q l = spec_removeduplicates l) ->
        quads_unique (quadlist c) ->
        let survivors := dedup_against (quadlist c) batch in
        quadlist c' = quadlist c ++ survivors
        /\ forall q, In q survivors ->
             In q batch /\ seen_before q (quadlist c) = false).
Proof.
  intros Hl batch. eexists. split; [apply makemorequads_generating, Hl|].
  cbn [quadlevel quadlist set_quadlevel set_quadlist].
  split; [reflexivity|]. split; [reflexivity|].
  intros Hd Hu. split.
  - rewrite Hd. now apply spec_removeduplicates_app.
  - intros q Hq. split.
    + eapply dedup_against_incl, Hq.
    + destruct (dedup_against_fresh batch (quadlist c)) as [Hf _].
      rewrite Forall_forall in Hf. now apply Hf.
Qed.

Lemma escalation_step_witness :
  0 <= quadlevel (escalate chain_quad 1 six_img) <= 4
  /\ exists c',
      makemorequads chain_quad (escalate chain_quad 1 six_img) = (true, c')
      /\ quadlevel c' = 2.
Proof.
  split; [vm_compute; split; discriminate|].
  destruct (escalation_step chain_quad (escalate chain_quad 1 six_img))
    as [c' [Hrun [Hlevel _]]]; [vm_compute; split; discriminate|].
  exists c'. split; [exact Hrun | exact Hlevel].
Defined.

Lemma escalation_saturates_witness :
  quadlevel six_fresh = 0
  /\ quadlevel (escalate chain_quad 7 six_fresh) = 5.
Proof.
  split; [reflexivity|].
  apply (escalation_saturates chain_quad six_fresh 7). reflexivity.
Defined.

(** C7. With the deduplicator of the design document, after a step that
    returned [True] no two quads of the list have the same member stars,
    and every member set that was in the list is still in it.  When the
    list had no duplicates before the step (as after any earlier step, or
    in a fresh catalog), it is a prefix of the new list: quads are only
    ever appended. *)
Theorem quadlist_unique_append_only
  (mq1 : list Star -> Z -> float -> list Quad)
  (mq2 : list Star -> Z -> Z -> option Z -> float -> list Quad)
  (c c' : ImgCat) :
  makemorequads (spec_quad mq1 mq2) c = (true, c') ->
  quads_unique (quadlist c')
  /\ (forall q, In q (quadlist c) ->
       exists q', In q' (quadlist c') /\ same_members q q' = true)
  /\ (quads_unique (quadlist c) ->
      exists extra,
        quadlist c' = quadlist c ++ extra
        /\ forall q, In q (quadlist c) -> In q (quadlist c')).
Proof.
  intros Hrun.
  destruct (makemorequads_cases (spec_quad mq1 mq2) c) as [[_ E]|[_ E]];
    rewrite E in Hrun; [|discriminate].
  injection Hrun as <-.
  cbn [quadlist set_quadlevel set_quadlist removeduplicates spec_quad].
  set (batch := level_batch (spec_quad mq1 mq2) (quadlevel c) c).
  split; [|split].
  - apply dedup_against_fresh.
  - intros q Hq.
    destruct (dedup_against_covers (quadlist c ++ batch) [] q) as [Hs|Hs].
    + apply in_or_app. now left.
    + discriminate.
    + exact Hs.
  - intros Hu. exists (dedup_against (quadlist c) batch).
    rewrite spec_removeduplicates_app by assumption. split; [reflexivity|].
    intros q Hq. apply in_or_app. now left.
Qed.

Lemma quadlist_unique_append_only_witness :
  makemorequads chain_quad (escalate chain_quad 1 six_img)
  = (true, escalate chain_quad 2 six_img)
  /\ quads_unique (quadlist (escalate chain_quad 2 six_img)).
Proof.
  split; [vm_compute; reflexivity|].
  apply (quadlist_unique_append_only chain_quads1 chain_quads2
           (escalate chain_quad 1 six_img) (escalate chain_quad 2 six_img)).
  vm_compute. reflexivity.
Defined.

(** From a duplicate-free list (the empty one of a fresh catalog), every
    run of escalation steps keeps the list duplicate-free. *)
Lemma escalate_quads_unique
  (mq1 : list Star -> Z -> float -> list Quad)
  (mq2 : list Star -> Z -> Z -> option Z -> float -> list Quad)
  (k : nat) (c : ImgCat) :
  quads_unique (quadlist c) ->
  quads_unique (quadlist (escalate (spec_quad mq1 mq2) k c)).
Proof.
  revert c. induction k as [|k IH]; intros c Hu; [exact Hu|].
  cbn [escalate]. apply IH.
  destruct (makemorequads_cases (spec_quad mq1 mq2) c) as [[_ E]|[_ E]];
    rewrite E; cbn [snd quadlist set_quadlevel set_quadlist removeduplicates spec_quad].
  - apply dedup_against_fresh.
  - exact Hu.
Qed.

(** ** Order on floats *)

Lemma SFcompare_antisym (a b : spec_float) :
  SFcompare b a = option_map CompOpp (SFcompare a b).
Proof.
  destruct a as [sa|sa| |sa ma ea], b as [sb|sb| |sb mb eb];
    try destruct sa; try destruct sb; simpl; try reflexivity.
  all: rewrite (Z.compare_antisym eb ea);
    destruct (eb ?= ea); simpl; try reflexivity;
    change (Pos.compare_cont Eq) with Pos.compare;
    rewrite (Pos.compare_antisym mb ma);
    destruct (mb ?= ma)%positive; reflexivity.
Qed.

Lemma SFcompare_numbers (a b : spec_float) :
  a <> S754_nan -> b <> S754_nan -> SFcompare a b <> None.
Proof.
  destruct a as [sa|sa| |sa ma ea], b as [sb|sb| |sb mb eb];
    simpl; congruence.
Qed.

Lemma SFleb_trans (a b c : spec_float) :
  SFleb a b = true -> SFleb b c = true -> SFleb a c = true.
Proof.
  unfold SFleb.
  destruct a as [sa|sa| |sa ma ea], b as [sb|sb| |sb mb eb],
           c as [sc|sc| |sc mc ec];
    try destruct sa; try destruct sb; try destruct sc; simpl;
    try discriminate; try reflexivity;
    change (Pos.compare_cont Eq) with Pos.compare;
    destruct (Z.compare_spec ea eb), (Z.compare_spec eb ec),
             (Z.compare_spec ea ec);
    subst; try lia; try discriminate; try reflexivity;
    destruct (Pos.compare_spec ma mb), (Pos.compare_spec mb mc),
             (Pos.compare_spec ma mc);
    subst; simpl; try lia; try discriminate; try reflexivity.
Qed.

Lemma leb_trans (a b c : float) :
  PrimFloat.leb a b = true -> PrimFloat.leb b c = true ->
  PrimFloat.leb a c = true.
Proof. rewrite !leb_spec. apply SFleb_trans. Qed.

Lemma ltb_leb (a b : float) :
  PrimFloat.ltb a b = true -> PrimFloat.leb a b = true.
Proof.
  rewrite ltb_spec, leb_spec. unfold SFltb, SFleb.
  destruct (SFcompare (Prim2SF a) (Prim2SF b)) as [[| |]|]; congruence.
Qed.

Lemma not_ltb_leb (a b : float) :
  is_number a -> is_number b ->
  PrimFloat.ltb a b = false -> PrimFloat.leb b a = true.
Proof.
  unfold is_number. intros Ha Hb. rewrite ltb_spec, leb_spec.
  unfold SFltb, SFleb. rewrite (SFcompare_antisym (Prim2SF a) (Prim2SF b)).
  pose proof (SFcompare_numbers _ _ Ha Hb) as Hc.
  destruct (SFcompare (Prim2SF a) (Prim2SF b)) as [[| |]|];
    simpl; congruence.
Qed.

Lemma leb_refl (a : float) : is_number a -> PrimFloat.leb a a = true.
Proof.
  intros Ha. apply not_ltb_leb; try assumption.
  rewrite ltb_spec. unfold SFltb.
  pose proof (SFcompare_antisym (Prim2SF a) (Prim2SF a)) as H.
  destruct (SFcompare (Prim2SF a) (Prim2SF a)) as [[| |]|];
    simpl in H; congruence.
Qed.

Lemma leb_is_number (a b : float) :
  PrimFloat.leb a b = true -> is_number a /\ is_number b.
Proof.
  unfold is_number. rewrite leb_spec. unfold SFleb.
  destruct (Prim2SF a), (Prim2SF b); simpl; try discriminate;
    split; discriminate.
Qed.

(** On numbers, [min(a, b)] is one of its arguments and lies below both. *)
Lemma pymin_least (a b : float) :
  is_number a -> is_number b ->
  (pymin a b = a \/ pymin a b = b)
  /\ PrimFloat.leb (pymin a b) a = true
  /\ PrimFloat.leb (pymin a b) b = true.
Proof.
  intros Ha Hb. unfold pymin. destruct (PrimFloat.ltb b a) eqn:E.
  - split; [now right|]. split; [now apply ltb_leb | now apply leb_refl].
  - split; [now left|]. split; [now apply leb_refl | now apply not_ltb_leb].
Qed.

(** ** Building the star list *)

(** C9. [makestarlist] gives the same catalog and the same outcome
    whatever [skipsaturated] is: the threshold it derives from the
    argument is handed to no one. *)
Theorem makestarlist_ignores_skipsaturated
  (St : StarOps) (c : ImgCat) (n : Z) (skip1 skip2 : bool) :
  makestarlist St c skip1 n = makestarlist St c skip2 n.
Proof.
  unfold makestarlist.
  destruct (readsexcat St (cat c) None) as [raw|e]; [|reflexivity].
  destruct (area St _ _) as [[[[xmin xmax] ymin] ymax]|e]; reflexivity.
Qed.

(** C5. When [makestarlist] returns, the axis limits it stored are the
    bounding box [star.area] gave for the stored star list, and
    [mindist] is [min(min(xmax - xmin, ymax - ymin) / 10, 30)] of that
    box; it never compares above 30. *)
Theorem mindist_formula
  (St : StarOps) (c : ImgCat) (skip : bool) (n : Z) (c' : ImgCat) :
  makestarlist St c skip n = (c', Returned tt) ->
  let '(xmin, xmax) := xlim c' in
  let '(ymin, ymax) := ylim c' in
  area St (starlist c') 0.01%float = Returned (xmin, xmax, ymin, ymax)
  /\ mindist c' = (pymin (pymin (xmax - xmin) (ymax - ymin) / 10) 30)%float
  /\ PrimFloat.ltb 30 (mindist c') = false.
Proof.
  unfold makestarlist.
  destruct (readsexcat St (cat c) None) as [raw|e]; [|discriminate].
  cbn [starlist set_starlist].
  destruct (area St _ _) as [[[[xmin xmax] ymin] ymax]|e] eqn:Harea;
    [|discriminate].
  intros H. injection H as <-. cbn.
  split; [exact Harea|]. split; [reflexivity|].
  set (v := (pymin (xmax - xmin) (ymax - ymin) / 10)%float).
  unfold pymin. destruct (PrimFloat.ltb 30 v) eqn:E; [reflexivity | exact E].
Qed.

Lemma mindist_formula_witness :
  makestarlist spec_star six_fresh false 200 = (six_img, Returned tt)
  /\ mindist six_img = (pymin (pymin (60.5 - 9.5) (0.5 - -0.5) / 10) 30)%float.
Proof.
  split; [vm_compute; reflexivity|].
  pose proof (mindist_formula spec_star six_fresh false 200 six_img) as H.
  change (xlim six_img) with (9.5%float, 60.5%float) in H.
  change (ylim six_img) with ((-0.5)%float, 0.5%float) in H.
  apply H. vm_compute. reflexivity.
Defined.

(** [makestarlist] raises nothing of its own: what it raises, one of the
    two fallible helpers raised. *)
Lemma makestarlist_raises_from_helpers
  (St : StarOps) (c : ImgCat) (skip : bool) (n : Z) (c' : ImgCat) (e : exn) :
  makestarlist St c skip n = (c', Raised e) ->
  readsexcat St (cat c) None = Raised e
  \/ exists raw, readsexcat St (cat c) None = Returned raw
       /\ area St (slice_to (sortstarlistbyflux St raw) n) 0.01%float = Raised e.
Proof.
  unfold makestarlist.
  destruct (readsexcat St (cat c) None) as [raw|e0].
  - cbn [starlist set_starlist].
    destruct (area St _ _) as [[[[xmin xmax] ymin] ymax]|e1] eqn:Harea;
      [discriminate|].
    intros H. injection H as _ <-. right. now exists raw.
  - intros H. injection H as _ <-. now left.
Qed.

(** C4.  With the reading of the design document, whatever threshold it
    applies on its own and whatever the ranking and the area function
    are: when no detection of the raw catalog is usable, [makestarlist]
    fails with [EmptyCatalog] and the catalog object is what it was, its
    star list, limits and [mindist] included; the failure comes before
    the assignment of line 79, so no star list is stored. *)
Theorem makestarlist_empty_catalog
  (own : Z) (rank : list Star -> list Star)
  (a : list Star -> float -> outcome box)
  (c : ImgCat) (skip : bool) (n : Z) (rows : Catalog) :
  cat c = Some rows ->
  filter (fun s => flag s <=? own) rows = [] ->
  let St := mkStarOps (spec_readsexcat own) rank a in
  makestarlist St c skip n = (c, Raised "EmptyCatalog"%string)
  /\ starlist (fst (makestarlist St c skip n)) = starlist c.
Proof.
  intros Hcat Hnone St.
  assert (makestarlist St c skip n = (c, Raised "EmptyCatalog"%string)) as E.
  { unfold makestarlist, St. cbn [readsexcat]. rewrite Hcat.
    cbn [spec_readsexcat]. rewrite Hnone. reflexivity. }
  split; [exact E | now rewrite E].
Qed.

Lemma makestarlist_empty_catalog_witness :
  cat six_img_blanked = Some [star_at 10 600 9]%float
  /\ filter (fun s => flag s <=? 7) [star_at 10 600 9]%float = []
  /\ makestarlist spec_star six_img_blanked false 200
     = (six_img_blanked, Raised "EmptyCatalog"%string)
  /\ List.length (starlist six_img_blanked) = 6%nat.
Proof.
  split; [reflexivity|]. split; [reflexivity|]. split; [|reflexivity].
  apply (makestarlist_empty_catalog 7 spec_sortstarlistbyflux spec_area
           six_img_blanked false 200 [star_at 10 600 9]%float);
    reflexivity.
Defined.

(** The stars kept when the caller opts in are those kept when it does
    not, for any [star] module: a star of flag above 3 that is kept
    without [skipsaturated] is kept with it. *)
Lemma saturated_star_survives_opt_in
  (St : StarOps) (c : ImgCat) (n : Z) (s : Star) :
  In s (starlist (fst (makestarlist St c false n))) ->
  In s (starlist (fst (makestarlist St c true n))).
Proof.
  unfold makestarlist.
  destruct (readsexcat St (cat c) None) as [raw|e]; [|tauto].
  destruct (area St _ _) as [[[[xmin xmax] ymin] ymax]|e]; tauto.
Qed.

(** ** Ranking and truncation *)

Lemma flux_ok_number (s : Star) : flux_ok s -> is_number (flux s).
Proof. intros H. now apply leb_is_number in H. Qed.

Lemma brighter_first_trans (p q r : Star) :
  brighter_first p q -> brighter_first q r -> brighter_first p r.
Proof. unfold brighter_first. intros Hpq Hqr. now apply (leb_trans _ (flux q)). Qed.

Lemma insert_by_flux_perm (s : Star) (l : list Star) :
  Permutation (insert_by_flux s l) (s :: l).
Proof.
  induction l as [|h t IH]; simpl; [reflexivity|].
  destruct (PrimFloat.ltb (flux s) (flux h)); [|reflexivity].
  rewrite IH. apply perm_swap.
Qed.

Lemma spec_sortstarlistbyflux_perm (l : list Star) :
  Permutation (spec_sortstarlistbyflux l) l.
Proof.
  induction l as [|s r IH]; simpl; [reflexivity|].
  rewrite insert_by_flux_perm. now constructor.
Qed.

Lemma insert_by_flux_sorted (s : Star) (l : list Star) :
  flux_ok s -> Forall flux_ok l ->
  Sorted brighter_first l -> Sorted brighter_first (insert_by_flux s l).
Proof.
  intros Hs Hl Hsorted. induction l as [|h t IH]; simpl.
  - repeat constructor.
  - inversion Hl as [|? ? Hh Ht]; subst.
    inversion Hsorted as [|? ? Hst Hhd]; subst.
    destruct (PrimFloat.ltb (flux s) (flux h)) eqn:E.
    + constructor; [now apply IH|].
      destruct t as [|h' t']; simpl.
      * constructor. now apply ltb_leb.
      * destruct (PrimFloat.ltb (flux s) (flux h')).
        -- constructor. now inversion Hhd.
        -- constructor. now apply ltb_leb.
    + constructor; [assumption|]. constructor.
      apply not_ltb_leb; auto using flux_ok_number.
Qed.

Lemma spec_sortstarlistbyflux_sorted (l : list Star) :
  Forall flux_ok l -> StronglySorted brighter_first (spec_sortstarlistbyflux l).
Proof.
  intros Hl. apply Sorted_StronglySorted.
  - intros p q r. apply brighter_first_trans.
  - induction l as [|s r IH]; simpl; [constructor|].
    inversion Hl as [|? ? Hs Hr]; subst.
    apply insert_by_flux_sorted; [assumption| |now apply IH].
    rewrite Forall_forall in *. intros a Ha. apply Hr.
    now apply (Permutation_in _ (spec_sortstarlistbyflux_perm r)).
Qed.

(** Cutting a ranked list in two: the front is ranked, and nothing in the
    back outshines anything in the front. *)
Lemma StronglySorted_split (l1 l2 : list Star) :
  StronglySorted brighter_first (l1 ++ l2) ->
  StronglySorted brighter_first l1
  /\ forall k d, In k l1 -> In d l2 -> brighter_first k d.
Proof.
  induction l1 as [|h t IH]; simpl; intros H.
  - split; [constructor | contradiction].
  - inversion H as [|? ? Ht Hh]; subst. destruct (IH Ht) as [Hs Hb]. split.
    + constructor; [assumption|].
      rewrite Forall_forall in *. intros a Ha. apply Hh, in_or_app. now left.
    + intros k d [<-|Hk] Hd.
      * rewrite Forall_forall in Hh. apply Hh, in_or_app. now right.
      * now apply Hb.
Qed.

(** C6.  With the reading and the ranking of the design document,
    whatever threshold the reading applies on its own, on a catalog of
    non-negative fluxes with at least one usable star and for a limit
    [n >= 0]: the star list that [makestarlist] stores is ranked by
    non-increasing flux and holds [min(n, usable)] stars, so at most [n];
    together with the stars left out it makes up the usable stars of the
    catalog; those left out are the excess over [n] and no more, and none
    of them is brighter than any of those kept. *)
Theorem starlist_ranked_and_bounded
  (own : Z) (a : list Star -> float -> outcome box)
  (c : ImgCat) (skip : bool) (n : Z) (rows : Catalog) :
  cat c = Some rows ->
  Forall flux_ok rows ->
  0 <= n ->
  let usable := filter (fun s => flag s <=? own) rows in
  usable <> [] ->
  let St := mkStarOps (spec_readsexcat own) spec_sortstarlistbyflux a in
  let kept := starlist (fst (makestarlist St c skip n)) in
  StronglySorted brighter_first kept
  /\ Z.of_nat (List.length kept) <= n
  /\ Z.of_nat (List.length kept) = Z.min n (Z.of_nat (List.length usable))
  /\ exists dropped,
      Permutation usable (kept ++ dropped)
      /\ Z.of_nat (List.length dropped)
         = Z.max 0 (Z.of_nat (List.length usable) - n)
      /\ forall k d, In k kept -> In d dropped -> brighter_first k d.
Proof.
  intros Hcat Hflux Hn usable Hsome St kept.
  set (ranked := spec_sortstarlistbyflux usable).
  assert (kept = firstn (Z.to_nat n) ranked) as Hkept.
  { unfold kept, makestarlist, St. cbn [readsexcat sortstarlistbyflux area].
    rewrite Hcat. cbn [spec_readsexcat]. fold usable.
    destruct usable as [|s0 rest] eqn:Husable; [contradiction|].
    cbn [starlist set_starlist]. unfold slice_to.
    destruct (Z.leb_spec 0 n) as [_|Hneg]; [|lia].
    destruct (a _ _) as [[[[xmin xmax] ymin] ymax]|e]; reflexivity. }
  assert (Forall flux_ok usable) as Husable.
  { rewrite Forall_forall in *. intros s Hs. apply Hflux.
    unfold usable in Hs. now apply filter_In in Hs. }
  assert (List.length ranked = List.length usable) as Hlen
    by (apply Permutation_length, spec_sortstarlistbyflux_perm).
  pose proof (spec_sortstarlistbyflux_sorted usable Husable) as Hsorted.
  fold ranked in Hsorted.
  rewrite <- (firstn_skipn (Z.to_nat n) ranked) in Hsorted.
  apply StronglySorted_split in Hsorted as [Hfront Hback].
  rewrite Hkept. split; [exact Hfront|].
  split; [rewrite length_firstn; lia|].
  split; [rewrite length_firstn; lia|].
  exists (skipn (Z.to_nat n) ranked). split; [|split; [|exact Hback]].
  - rewrite firstn_skipn. symmetry. apply spec_sortstarlistbyflux_perm.
  - rewrite length_skipn. lia.
Qed.

Lemma starlist_ranked_and_bounded_witness :
  cat six_fresh = Some six_stars
  /\ Forall flux_ok six_stars
  /\ 0 <= 4
  /\ filter (fun s => flag s <=? 7) six_stars <> []
  /\ Z.of_nat (List.length
                 (starlist (fst (makestarlist spec_star six_fresh false 4))))
     = Z.min 4 (Z.of_nat (List.length
                            (filter (fun s => flag s <=? 7) six_stars))).
Proof.
  assert (Forall flux_ok six_stars) as Hflux
    by (repeat constructor; vm_compute; reflexivity).
  assert (filter (fun s => flag s <=? 7) six_stars <> []) as Hsome
    by (vm_compute; discriminate).
  split; [reflexivity|]. split; [exact Hflux|]. split; [lia|].
  split; [exact Hsome|].
  apply (starlist_ranked_and_bounded 7 spec_area six_fresh false 4 six_stars);
    [reflexivity | exact Hflux | lia | exact Hsome].
Defined.

(** A negative limit cuts from the end: the list keeps more stars than
    the limit says. *)
Example slice_to_negative : slice_to [1; 2; 3] (-1) = [1; 2].
Proof. reflexivity. Qed.

Lemma slice_to_In {A : Type} (l : list A) (n : Z) (a : A) :
  In a (slice_to l n) -> In a l.
Proof.
  unfold slice_to. intros H.
  destruct (0 <=? n);
    match type of H with In _ (firstn ?k _) =>
      rewrite <- (firstn_skipn k l); apply in_or_app; now left
    end.
Qed.

(** Whatever [skipsaturated] is, a star that enters the list has a flag
    within the threshold the reading applies on its own. *)
Lemma starlist_flags_own_threshold
  (own : Z) (a : list Star -> float -> outcome box)
  (c : ImgCat) (skip : bool) (n : Z) (s : Star) :
  let St := mkStarOps (spec_readsexcat own) spec_sortstarlistbyflux a in
  In s (starlist (fst (makestarlist St c skip n))) ->
  In s (starlist c) \/ flag s <= own.
Proof.
  intros St. unfold makestarlist, St. cbn [readsexcat sortstarlistbyflux area].
  destruct (cat c) as [rows|]; cbn [spec_readsexcat]; [|now left].
  destruct (filter (fun s0 => flag s0 <=? own) rows) as [|s0 rest] eqn:Hfilter;
    [now left|].
  cbn [starlist set_starlist].
  set (l := spec_sortstarlistbyflux _).
  assert (In s (slice_to l n) -> flag s <= own) as Hin.
  { intros Hs. apply slice_to_In in Hs as Hl.
    apply (Permutation_in _ (spec_sortstarlistbyflux_perm _)) in Hl.
    rewrite <- Hfilter in Hl.
    apply filter_In in Hl as [_ Hl]. now apply Z.leb_le. }
  destruct (a _ _) as [[[[xmin xmax] ymin] ymax]|e]; cbn; intros Hs;
    right; now apply Hin.
Qed.

(** ** The constructor *)

Local Open Scope string_scope.

Lemma append_assoc_str (a b c : string) : (a ++ b) ++ c = a ++ (b ++ c).
Proof. induction a as [|ch a IH]; simpl; [reflexivity | now rewrite IH]. Qed.

Lemma str_take_app (pre r : string) : str_take (String.length pre) (pre ++ r) = pre.
Proof. induction pre as [|ch pre IH]; simpl; [reflexivity | now rewrite IH]. Qed.

Lemma str_drop_app (pre r : string) : str_drop (String.length pre) (pre ++ r) = r.
Proof. induction pre as [|ch pre IH]; simpl; [reflexivity | exact IH]. Qed.

Lemma all_char_app (ch : ascii) (a b : string) :
  all_char ch (a ++ b) = all_char ch a && all_char ch b.
Proof.
  induction a as [|c a IH]; simpl; [reflexivity|].
  rewrite IH. apply andb_assoc.
Qed.

(** [rfind_from] finds the last occurrence: the text splits around it and
    the part behind it is free of the character; or there is none. *)
Lemma rfind_from_spec (ch : ascii) (s : string) (i last : Z) :
  (occurs ch s = false /\ rfind_from ch s i last = last)
  \/ exists pre post,
      s = pre ++ String ch post /\ occurs ch post = false
      /\ rfind_from ch s i last = i + Z.of_nat (String.length pre).
Proof.
  revert i last. induction s as [|c r IH]; intros i last; simpl.
  - left. split; reflexivity.
  - destruct (IH (i + 1) (if Ascii.eqb c ch then i else last))
      as [[Hno Hr]|[pre [post [Hs [Hno Hr]]]]].
    + destruct (Ascii.eqb_spec c ch) as [->|Hne].
      * right. exists "", r. simpl. repeat split; [assumption | lia].
      * left. simpl. split; assumption.
    + right. exists (String c pre), post. simpl.
      rewrite Hs at 1. repeat split; [assumption | lia].
Qed.

Lemma rfind_spec (ch : ascii) (s : string) :
  (occurs ch s = false /\ rfind ch s = -1)
  \/ exists pre post,
      s = pre ++ String ch post /\ occurs ch post = false
      /\ rfind ch s = Z.of_nat (String.length pre).
Proof. apply (rfind_from_spec ch s 0 (-1)). Qed.

(** The tail of [os.path.split] is what follows the last slash. *)
Lemma os_path_split_tail (p : string) :
  exists dir,
    p = dir ++ snd (os_path_split p)
    /\ occurs sep (snd (os_path_split p)) = false
    /\ (dir = "" \/ exists d, dir = d ++ String sep "").
Proof.
  assert (snd (os_path_split p) = str_from p (rfind sep p + 1)) as ->.
  { unfold os_path_split. now destruct (_ && _). }
  destruct (rfind_spec sep p) as [[Hno ->]|[pre [post [Hp [Hno ->]]]]].
  - exists "". simpl. repeat split; [assumption | now left].
  - exists (pre ++ String sep ""). unfold str_from.
    replace (Z.to_nat (Z.of_nat (String.length pre) + 1))
      with (String.length (pre ++ String sep "")).
    + assert (p = (pre ++ String sep "") ++ post) as E
        by (rewrite append_assoc_str; exact Hp).
      rewrite E at 2 3. rewrite str_drop_app.
      repeat split; [assumption | assumption | right; now exists pre].
    + clear. induction pre as [|c pre IH]; simpl; [reflexivity|].
      rewrite IH. lia.
Qed.

(** On a single path component, [os.path.splitext] cuts at the last dot,
    unless only dots come before it. *)
Lemma os_path_splitext_component (f : string) :
  occurs sep f = false ->
  let (root, ext) := os_path_splitext f in
  f = root ++ ext
  /\ ((ext = ""
       /\ exists dots rest,
           root = dots ++ rest /\ all_char extsep dots = true
           /\ occurs extsep rest = false)
      \/ exists e,
          ext = String extsep e /\ occurs extsep e = false
          /\ all_char extsep root = false).
Proof.
  intros Hsep. unfold os_path_splitext.
  destruct (rfind_spec sep f) as [[_ ->]|[pre [post [Hf _]]]].
  2:{ exfalso. rewrite Hf in Hsep. clear -Hsep.
      induction pre as [|c pre IH]; simpl in Hsep.
      - try rewrite Ascii.eqb_refl in Hsep. discriminate.
      - apply orb_false_elim in Hsep as [_ Hsep]. now apply IH. }
  destruct (rfind_spec extsep f) as [[Hno ->]|[pre [post [Hf [Hno ->]]]]].
  - simpl. split.
    + clear. induction f as [|c f IH]; simpl; [reflexivity | now rewrite <- IH].
    + left. split; [reflexivity|]. exists "", f. now repeat split.
  - destruct (Z.gtb_spec (Z.of_nat (String.length pre)) (-1)) as [_|Hlt]; [|lia].
    unfold str_to, str_from.
    replace (Z.to_nat (-1 + 1)) with O by reflexivity.
    replace (Z.to_nat (Z.of_nat (String.length pre) - (-1 + 1)))
      with (String.length pre) by lia.
    cbn [str_drop]. rewrite Nat2Z.id. rewrite Hf.
    rewrite !str_take_app, str_drop_app.
    destruct (all_char extsep pre) eqn:Hdots; cbn [negb].
    + split.
      * clear. generalize (pre ++ String extsep post).
        intros f. induction f as [|c f IH]; simpl; [reflexivity | now rewrite <- IH].
      * left. split; [reflexivity|].
        exists (pre ++ String extsep ""), post.
        rewrite append_assoc_str. split; [reflexivity|]. split; [|assumption].
        rewrite all_char_app, Hdots. reflexivity.
    + split; [reflexivity|]. right. exists post. now repeat split.
Qed.

(** C10. A new catalog stands at quad level 0 with empty quad and star
    lists and [mindist] 0.  Its name is the last path component without
    its extension: the path is a directory part (empty, or ending in a
    slash) followed by a slash-free component [name ++ ext], where [ext]
    is a final dot with the dot-free text behind it, provided something
    other than dots precedes that dot, and is empty otherwise. *)
Theorem init_fields (path : string) (h : Z) (mycat : option Catalog) :
  let c := init path h mycat in
  quadlevel c = 0 /\ quadlist c = [] /\ starlist c = []
  /\ mindist c = 0%float
  /\ exists dir ext,
      path = dir ++ (name c ++ ext)
      /\ (dir = "" \/ exists d, dir = d ++ String sep "")
      /\ occurs sep (name c ++ ext) = false
      /\ ((ext = ""
           /\ exists dots rest,
               name c = dots ++ rest /\ all_char extsep dots = true
               /\ occurs extsep rest = false)
          \/ exists e,
              ext = String extsep e /\ occurs extsep e = false
              /\ all_char extsep (name c) = false).
Proof.
  unfold init.
  destruct (os_path_split_tail path) as [dir [Hpath [Hsep Hdir]]].
  destruct (os_path_split path) as [imgdir filename]. cbn [snd] in *.
  pose proof (os_path_splitext_component filename Hsep) as Hext.
  destruct (os_path_splitext filename) as [common ext].
  destruct Hext as [Hfile Hext]. cbn.
  repeat (split; [reflexivity|]).
  exists dir, ext. rewrite <- Hfile. repeat split; assumption.
Qed.

(** ** More on the constructor *)

Lemma occurs_app (ch : ascii) (a b : string) :
  occurs ch (a ++ b) = occurs ch a || occurs ch b.
Proof.
  induction a as [|c a IH]; simpl; [reflexivity|].
  rewrite IH. apply orb_assoc.
Qed.

Lemma append_empty_r (a : string) : a ++ "" = a.
Proof. induction a as [|c a IH]; simpl; [reflexivity | now rewrite IH]. Qed.

Lemma rfind_from_none (ch : ascii) (s : string) (i last : Z) :
  occurs ch s = false -> rfind_from ch s i last = last.
Proof.
  revert i last. induction s as [|c r IH]; intros i last; simpl; [reflexivity|].
  intros H. apply orb_false_elim in H as [Hc Hr].
  rewrite Hc. now apply IH.
Qed.

Lemma rfind_from_last (ch : ascii) (pre post : string) (i last : Z) :
  occurs ch post = false ->
  rfind_from ch (pre ++ String ch post) i last
  = i + Z.of_nat (String.length pre).
Proof.
  intros Hpost. revert i last.
  induction pre as [|c pre IH]; intros i last; simpl.
  - rewrite Ascii.eqb_refl, rfind_from_none by assumption. lia.
  - rewrite IH. lia.
Qed.

Lemma rfind_none (ch : ascii) (s : string) :
  occurs ch s = false -> rfind ch s = -1.
Proof. apply rfind_from_none. Qed.

Lemma rfind_last (ch : ascii) (pre post : string) :
  occurs ch post = false ->
  rfind ch (pre ++ String ch post) = Z.of_nat (String.length pre).
Proof. intros H. unfold rfind. now rewrite rfind_from_last. Qed.

Lemma rfind_lower_bound (ch : ascii) (s : string) : -1 <= rfind ch s.
Proof.
  destruct (rfind_spec ch s) as [[_ ->]|[pre [post [_ [_ ->]]]]]; lia.
Qed.

Lemma os_path_split_component (d f : string) :
  dir_part d -> occurs sep f = false -> snd (os_path_split (d ++ f)) = f.
Proof.
  intros Hd Hf.
  assert (snd (os_path_split (d ++ f))
          = str_from (d ++ f) (rfind sep (d ++ f) + 1)) as ->.
  { unfold os_path_split. now destruct (_ && _). }
  destruct Hd as [->|[d' ->]].
  - simpl. now rewrite rfind_none.
  - rewrite append_assoc_str. cbn [append].
    rewrite rfind_last by assumption. unfold str_from.
    replace (Z.to_nat (Z.of_nat (String.length d') + 1))
      with (String.length (d' ++ String sep "")).
    + change (String sep f) with (String sep "" ++ f).
      rewrite <- append_assoc_str. apply str_drop_app.
    + clear. induction d' as [|c d' IH]; simpl; [reflexivity|].
      rewrite IH. lia.
Qed.

Lemma os_path_splitext_no_dot (f : string) :
  occurs extsep f = false -> os_path_splitext f = (f, "").
Proof.
  intros Hf. unfold os_path_splitext. rewrite (rfind_none extsep) by assumption.
  pose proof (rfind_lower_bound sep f) as Hlow.
  destruct (Z.gtb_spec (-1) (rfind sep f)); [lia | reflexivity].
Qed.

Lemma os_path_splitext_stem (stem e : string) :
  occurs sep stem = false -> occurs sep e = false ->
  all_char extsep stem = false -> occurs extsep e = false ->
  os_path_splitext (stem ++ String extsep e) = (stem, String extsep e).
Proof.
  intros Hs He Hstem Hdot. unfold os_path_splitext.
  rewrite (rfind_none sep).
  2:{ rewrite occurs_app, Hs. simpl. now rewrite He. }
  rewrite rfind_last by assumption.
  destruct (Z.gtb_spec (Z.of_nat (String.length stem)) (-1)); [|lia].
  unfold str_to, str_from.
  replace (Z.to_nat (-1 + 1)) with O by reflexivity.
  replace (Z.to_nat (Z.of_nat (String.length stem) - (-1 + 1)))
    with (String.length stem) by lia.
  cbn [str_drop]. rewrite Nat2Z.id, !str_take_app, str_drop_app, Hstem.
  reflexivity.
Qed.

Lemma init_name (path : string) (h : Z) (mycat : option Catalog) :
  name (init path h mycat)
  = fst (os_path_splitext (snd (os_path_split path))).
Proof.
  unfold init. destruct (os_path_split path) as [imgdir filename].
  cbn [snd]. now destruct (os_path_splitext filename).
Qed.

(** X1.  The name of a catalog holds no slash: a file named after it, as the
    two plotting methods do, lies directly in the directory they name. *)
Theorem init_name_no_slash (path : string) (h : Z) (mycat : option Catalog) :
  occurs sep (name (init path h mycat)) = false.
Proof.
  rewrite init_name.
  destruct (os_path_split_tail path) as [dir [_ [Hsep _]]].
  pose proof (os_path_splitext_component _ Hsep) as Hext.
  destruct (os_path_splitext (snd (os_path_split path))) as [root ext].
  destruct Hext as [Hfile _]. cbn [fst].
  rewrite Hfile, occurs_app in Hsep. now apply orb_false_elim in Hsep.
Qed.

(** X2.  The name is empty exactly for the empty path and for a path that ends
    in a slash. *)
Theorem init_name_empty_iff (path : string) (h : Z) (mycat : option Catalog) :
  name (init path h mycat) = "" <-> dir_part path.
Proof.
  rewrite init_name. split.
  - intros Hname.
    destruct (os_path_split_tail path) as [dir [Hpath [Hsep Hdir]]].
    pose proof (os_path_splitext_component _ Hsep) as Hext.
    destruct (os_path_splitext (snd (os_path_split path))) as [root ext].
    cbn [fst] in Hname. subst root.
    destruct Hext as [Hfile [[-> _]|[e [_ [_ Hall]]]]]; [|discriminate].
    rewrite Hfile, append_empty_r in Hpath. now rewrite Hpath.
  - intros Hdir.
    rewrite <- (append_empty_r path), os_path_split_component;
      [reflexivity | assumption | reflexivity].
Qed.

(** X3.  A bare identifier, with neither slash nor dot, is its own name. *)
Theorem init_name_identifier (ident : string) (h : Z) (mycat : option Catalog) :
  occurs sep ident = false -> occurs extsep ident = false ->
  name (init ident h mycat) = ident.
Proof.
  intros Hsep Hdot. rewrite init_name.
  change ident with ("" ++ ident) at 1.
  rewrite os_path_split_component; [|now left|assumption].
  now rewrite os_path_splitext_no_dot.
Qed.

Lemma init_name_identifier_witness :
  occurs sep "coj1m011" = false /\ occurs extsep "coj1m011" = false
  /\ name (init "coj1m011" 0 None) = "coj1m011".
Proof.
  split; [reflexivity|]. split; [reflexivity|].
  apply (init_name_identifier "coj1m011" 0 None); reflexivity.
Defined.

(** X4.  A stem followed by one extension, in any directory, gives the stem
    back: the stem may hold dots but must not consist of dots alone. *)
Theorem init_name_stem
  (dir stem e : string) (h : Z) (mycat : option Catalog) :
  dir_part dir ->
  occurs sep stem = false -> occurs sep e = false ->
  all_char extsep stem = false -> occurs extsep e = false ->
  name (init (dir ++ (stem ++ String extsep e)) h mycat) = stem.
Proof.
  intros Hdir Hs He Hstem Hdot. rewrite init_name.
  rewrite os_path_split_component; [|assumption|].
  - now rewrite os_path_splitext_stem.
  - rewrite occurs_app, Hs. simpl. now rewrite He.
Qed.

Lemma init_name_stem_witness :
  dir_part "/data/2018/"
  /\ name (init ("/data/2018/" ++ ("img.e91" ++ String extsep "fits")) 1 None)
     = "img.e91".
Proof.
  assert (dir_part "/data/2018/") as Hdir by (right; now exists "/data/2018").
  split; [exact Hdir|].
  apply (init_name_stem "/data/2018/" "img.e91" "fits" 1 None);
    [exact Hdir | reflexivity | reflexivity | reflexivity | reflexivity].
Defined.

(** X5.  The directory of the path has no part in the name. *)
Theorem init_name_ignores_directory
  (dir file : string) (h h' : Z) (mycat mycat' : option Catalog) :
  dir_part dir -> occurs sep file = false ->
  name (init (dir ++ file) h mycat) = name (init file h' mycat').
Proof.
  intros Hdir Hfile. rewrite !init_name.
  rewrite os_path_split_component by assumption.
  change file with ("" ++ file) at 2.
  rewrite os_path_split_component; [reflexivity | now left | assumption].
Qed.

Lemma init_name_ignores_directory_witness :
  dir_part "a/b/" /\ occurs sep ".hidden.cat" = false
  /\ name (init ("a/b/" ++ ".hidden.cat") 0 None)
     = name (init ".hidden.cat" 2 (Some [])).
Proof.
  assert (dir_part "a/b/") as Hdir by (right; now exists "a/b").
  split; [exact Hdir|]. split; [reflexivity|].
  apply (init_name_ignores_directory "a/b/" ".hidden.cat" 0 2 None (Some []));
    [exact Hdir | reflexivity].
Defined.

Local Close Scope string_scope.

(** ** More on the escalation ladder *)

(** X6.  The return value says exactly whether the level was one of 0 to 4:
    below 0 as from 5 on, the call returns [False] and the catalog is the
    same; the level moves, by one, exactly when [True] is returned. *)
Theorem makemorequads_return_value (Q : QuadOps) (c : ImgCat) :
  (fst (makemorequads Q c) = true <-> 0 <= quadlevel c <= 4)
  /\ (fst (makemorequads Q c) = false -> snd (makemorequads Q c) = c)
  /\ quadlevel (snd (makemorequads Q c))
     = quadlevel c + (if fst (makemorequads Q c) then 1 else 0).
Proof.
  destruct (makemorequads_cases Q c) as [[Hl E]|[Hl E]]; rewrite E;
    cbn [fst snd quadlevel set_quadlevel].
  - split; [tauto|]. split; [discriminate | reflexivity].
  - split; [split; [discriminate | lia]|]. split; [reflexivity | lia].
Qed.

Lemma escalate_add (Q : QuadOps) (j k : nat) (c : ImgCat) :
  escalate Q (j + k) c = escalate Q k (escalate Q j c).
Proof.
  revert c. induction j as [|j IH]; intros c; [reflexivity|].
  cbn [Nat.add escalate]. apply IH.
Qed.

Lemma escalate_exhausted (Q : QuadOps) (k : nat) (c : ImgCat) :
  5 <= quadlevel c -> escalate Q k c = c.
Proof.
  intros Hl. induction k as [|k IH]; [reflexivity|].
  cbn [escalate]. rewrite makemorequads_exhausted by lia. exact IH.
Qed.

(** X7.  Once the ladder is climbed, nothing changes any more: from a level
    [L] between 0 and 5, the catalog after [5 - L] steps is the catalog
    after any larger number of steps, in every attribute. *)
Theorem escalation_absorbing (Q : QuadOps) (c : ImgCat) (j : nat) :
  0 <= quadlevel c <= 5 ->
  escalate Q (Z.to_nat (5 - quadlevel c) + j) c
  = escalate Q (Z.to_nat (5 - quadlevel c)) c.
Proof.
  intros Hl. rewrite escalate_add. apply escalate_exhausted.
  rewrite escalate_level by assumption. lia.
Qed.

Lemma escalation_absorbing_witness :
  0 <= quadlevel (escalate chain_quad 2 six_img) <= 5
  /\ escalate chain_quad (3 + 4) (escalate chain_quad 2 six_img)
     = escalate chain_quad 3 (escalate chain_quad 2 six_img).
Proof.
  split; [vm_compute; split; discriminate|].
  apply (escalation_absorbing chain_quad (escalate chain_quad 2 six_img) 4).
  vm_compute. split; discriminate.
Defined.

(** X8.  A caller that keeps asking for more quads until it is refused gets
    [True] exactly [5 - L] times from level [L], and [False] from then
    on. *)
Theorem escalation_returns_pattern (Q : QuadOps) (k : nat) (c : ImgCat) :
  0 <= quadlevel c <= 5 ->
  let left := Z.to_nat (5 - quadlevel c) in
  escalation_returns Q k c
  = repeat true (Nat.min k left) ++ repeat false (k - left).
Proof.
  revert c. induction k as [|k IH]; intros c Hl; [reflexivity|].
  cbn [escalation_returns].
  destruct (makemorequads_cases Q c) as [[Hgen E]|[Hexh E]].
  - rewrite IH by (rewrite makemorequads_level by assumption; lia).
    rewrite makemorequads_level by assumption. rewrite E. cbn [fst].
    replace (Z.to_nat (5 - quadlevel c))
      with (Datatypes.S (Z.to_nat (5 - Z.min (quadlevel c + 1) 5))) by lia.
    reflexivity.
  - rewrite E. cbn [fst snd]. rewrite IH by assumption. cbn zeta.
    replace (Z.to_nat (5 - quadlevel c)) with O by lia.
    rewrite Nat.min_0_r, !Nat.sub_0_r. reflexivity.
Qed.

Lemma escalation_returns_pattern_witness :
  0 <= quadlevel six_img <= 5
  /\ escalation_returns chain_quad 7 six_img
     = [true; true; true; true; true; false; false].
Proof.
  split; [vm_compute; split; discriminate|].
  apply (escalation_returns_pattern chain_quad 7 six_img).
  vm_compute. split; discriminate.
Defined.

(** ** More on building the star list *)

(** X9.  Building the star list leaves the quads alone: the quad list and the
    quad level are as before, stale or not, and so are the name, the
    path, the HDU and the raw catalog; this whether the method returns or
    raises. *)
Theorem makestarlist_frame (St : StarOps) (c : ImgCat) (skip : bool) (n : Z) :
  let c' := fst (makestarlist St c skip n) in
  quadlist c' = quadlist c /\ quadlevel c' = quadlevel c
  /\ name c' = name c /\ filepath c' = filepath c
  /\ hdu c' = hdu c /\ cat c' = cat c.
Proof.
  unfold makestarlist.
  destruct (readsexcat St (cat c) None) as [raw|e]; [|cbn; repeat split].
  destruct (area St _ _) as [[[[xmin xmax] ymin] ymax]|e]; cbn; repeat split.
Qed.

(** X10.  A failure is not rolled back.  When [makestarlist] raises, the limits
    and [mindist] are the old ones; if it was the reading that failed the
    catalog object is untouched, but if the reading went through the star
    list has already been replaced by the new one. *)
Theorem makestarlist_failure_state
  (St : StarOps) (c : ImgCat) (skip : bool) (n : Z) (c' : ImgCat) (e : exn) :
  makestarlist St c skip n = (c', Raised e) ->
  xlim c' = xlim c /\ ylim c' = ylim c /\ mindist c' = mindist c
  /\ (readsexcat St (cat c) None = Raised e -> c' = c)
  /\ (forall raw, readsexcat St (cat c) None = Returned raw ->
      starlist c' = slice_to (sortstarlistbyflux St raw) n).
Proof.
  unfold makestarlist.
  destruct (readsexcat St (cat c) None) as [raw|e0].
  - cbn [starlist set_starlist].
    destruct (area St _ _) as [[[[xmin xmax] ymin] ymax]|e1]; [discriminate|].
    intros H. injection H as <- <-. cbn.
    repeat split; try reflexivity; [discriminate|].
    intros raw' Hraw. now injection Hraw as <-.
  - intros H. injection H as <- <-.
    repeat split; try reflexivity. discriminate.
Qed.

Lemma makestarlist_failure_state_witness :
  makestarlist strict_star six_img false 0
  = (set_starlist six_img [], Raised "ValueError"%string)
  /\ xlim (set_starlist six_img []) = xlim six_img.
Proof.
  assert (makestarlist strict_star six_img false 0
          = (set_starlist six_img [], Raised "ValueError"%string))
    as Hrun by (vm_compute; reflexivity).
  split; [exact Hrun|].
  apply (makestarlist_failure_state strict_star six_img false 0
           _ _ Hrun).
Defined.

(** X11.  Building the star list a second time changes nothing: the catalog and
    the outcome of the second call are those of the first, whatever
    [skipsaturated] is either time. *)
Theorem makestarlist_idempotent
  (St : StarOps) (c : ImgCat) (skip1 skip2 : bool) (n : Z) :
  makestarlist St (fst (makestarlist St c skip1 n)) skip2 n
  = makestarlist St c skip1 n.
Proof.
  unfold makestarlist at 2 3.
  destruct (readsexcat St (cat c) None) as [raw|e] eqn:Hread.
  - cbn [starlist set_starlist].
    destruct (area St (slice_to (sortstarlistbyflux St raw) n) 0.01%float)
      as [[[[xmin xmax] ymin] ymax]|e] eqn:Harea;
      cbn [fst]; unfold makestarlist;
      cbn [cat starlist set_starlist set_xlim set_ylim set_mindist];
      rewrite Hread; cbn [starlist set_starlist]; rewrite Harea; reflexivity.
  - cbn [fst]. unfold makestarlist. now rewrite Hread.
Qed.

(** X12.  The limit [n] cuts the ranked list as a slice does.  The kept stars
    are a prefix of the ranked ones.  For [n >= 0] there are [min(n, len)]
    of them, none for [n = 0].  A negative [n] is no limit on the count:
    it leaves out the last [-n] stars, and the rest, of whatever number,
    is kept. *)
Theorem makestarlist_truncation
  (St : StarOps) (c : ImgCat) (skip : bool) (n : Z) (raw : list Star) :
  readsexcat St (cat c) None = Returned raw ->
  let ranked := sortstarlistbyflux St raw in
  let kept := starlist (fst (makestarlist St c skip n)) in
  (exists dropped, ranked = kept ++ dropped)
  /\ Z.of_nat (List.length kept)
     = (if 0 <=? n then Z.min n (Z.of_nat (List.length ranked))
        else Z.max 0 (Z.of_nat (List.length ranked) + n)).
Proof.
  intros Hread ranked kept.
  assert (kept = slice_to ranked n) as ->.
  { unfold kept, makestarlist. rewrite Hread. cbn [starlist set_starlist].
    now destruct (area St _ _) as [[[[xmin xmax] ymin] ymax]|e]. }
  unfold slice_to. destruct (Z.leb_spec 0 n) as [Hn|Hn].
  - split.
    + exists (skipn (Z.to_nat n) ranked). symmetry. apply firstn_skipn.
    + rewrite length_firstn. lia.
  - split.
    + eexists. symmetry. apply firstn_skipn.
    + rewrite length_firstn. lia.
Qed.

Lemma makestarlist_truncation_witness :
  readsexcat spec_star (cat six_fresh) None = Returned six_stars
  /\ Z.of_nat (List.length
                 (starlist (fst (makestarlist spec_star six_fresh false (-2)))))
     = 4.
Proof.
  split; [reflexivity|].
  apply (makestarlist_truncation spec_star six_fresh false (-2) six_stars).
  reflexivity.
Defined.

Lemma ltb_nan_l (a b : float) : ~ is_number a -> PrimFloat.ltb a b = false.
Proof.
  unfold is_number. intros Ha. rewrite ltb_spec. unfold SFltb.
  destruct (Prim2SF a); try (exfalso; apply Ha; discriminate). reflexivity.
Qed.

Lemma ltb_nan_r (a b : float) : ~ is_number b -> PrimFloat.ltb a b = false.
Proof.
  unfold is_number. intros Hb. rewrite ltb_spec. unfold SFltb.
  destruct (Prim2SF b); try (exfalso; apply Hb; discriminate).
  now destruct (Prim2SF a).
Qed.

Lemma div_nan_l (a b : float) : ~ is_number a -> ~ is_number (a / b)%float.
Proof.
  unfold is_number. intros Ha H. apply H. rewrite div_spec.
  destruct (Prim2SF a); try (exfalso; apply Ha; discriminate). reflexivity.
Qed.

Lemma makestarlist_returned
  (St : StarOps) (c : ImgCat) (skip : bool) (n : Z) (c' : ImgCat) :
  makestarlist St c skip n = (c', Returned tt) ->
  mindist c'
  = (pymin (pymin (snd (xlim c') - fst (xlim c'))
                  (snd (ylim c') - fst (ylim c')) / 10) 30)%float.
Proof.
  unfold makestarlist.
  destruct (readsexcat St (cat c) None) as [raw|e]; [|discriminate].
  destruct (area St _ _) as [[[[xmin xmax] ymin] ymax]|e]; [|discriminate].
  intros H. injection H as <-. reflexivity.
Qed.

(** X13.  When the smaller span over ten is a number, [mindist] is the lesser
    of it and 30: one of the two, and not above either. *)
Theorem mindist_is_least
  (St : StarOps) (c : ImgCat) (skip : bool) (n : Z) (c' : ImgCat) :
  makestarlist St c skip n = (c', Returned tt) ->
  let scaled := (pymin (snd (xlim c') - fst (xlim c'))
                       (snd (ylim c') - fst (ylim c')) / 10)%float in
  is_number scaled ->
  (mindist c' = scaled \/ mindist c' = 30%float)
  /\ PrimFloat.leb (mindist c') scaled = true
  /\ PrimFloat.leb (mindist c') 30 = true.
Proof.
  intros Hrun scaled Hnum. rewrite (makestarlist_returned _ _ _ _ _ Hrun).
  fold scaled. apply pymin_least; [assumption|].
  unfold is_number. vm_compute. discriminate.
Qed.

Lemma mindist_is_least_witness :
  makestarlist spec_star six_fresh false 200 = (six_img, Returned tt)
  /\ PrimFloat.leb (mindist six_img) 30 = true.
Proof.
  assert (makestarlist spec_star six_fresh false 200 = (six_img, Returned tt))
    as Hrun by (vm_compute; reflexivity).
  split; [exact Hrun|].
  apply (mindist_is_least spec_star six_fresh false 200 six_img Hrun).
  unfold is_number. vm_compute. discriminate.
Defined.

(** X14.  The two spans are not treated alike when one is not a number.  If the
    x span is NaN, so is [mindist].  If only the y span is NaN it is
    passed over in silence: [mindist] is the lesser of a tenth of the x
    span and 30. *)
Theorem mindist_nan_spans
  (St : StarOps) (c : ImgCat) (skip : bool) (n : Z) (c' : ImgCat) :
  makestarlist St c skip n = (c', Returned tt) ->
  let w := (snd (xlim c') - fst (xlim c'))%float in
  let h := (snd (ylim c') - fst (ylim c'))%float in
  (~ is_number w -> ~ is_number (mindist c'))
  /\ (~ is_number h -> mindist c' = pymin (w / 10) 30).
Proof.
  intros Hrun w h. rewrite (makestarlist_returned _ _ _ _ _ Hrun).
  fold w h. split.
  - intros Hw. unfold pymin at 2. rewrite (ltb_nan_r h w Hw).
    unfold pymin. rewrite ltb_nan_r; now apply div_nan_l.
  - intros Hh. unfold pymin at 2. now rewrite (ltb_nan_l h w Hh).
Qed.

Lemma mindist_nan_spans_witness :
  snd (makestarlist spec_star lost_star_fresh false 200) = Returned tt
  /\ ~ is_number (mindist (fst (makestarlist spec_star lost_star_fresh false 200))).
Proof.
  split; [vm_compute; reflexivity|].
  apply (mindist_nan_spans spec_star lost_star_fresh false 200
           (fst (makestarlist spec_star lost_star_fresh false 200))).
  - vm_compute. reflexivity.
  - unfold is_number. vm_compute. intros H. now apply H.
Defined.

(** ** Reading the catalog from the file *)

(** X15.  [makecat] changes the raw catalog and nothing else.  On a file of at
    least three HDUs it returns and the catalog is the data of the third
    one; on a shorter file it raises [IndexError]; and whenever it raises,
    that or what opening the file raised, the object is left as it was. *)
Theorem makecat_frame_and_failure
  (fits_open : FitsOpen) (c : ImgCat) (rerun keepcat verbose : bool) :
  let c' := fst (makecat fits_open c rerun keepcat verbose) in
  let o := snd (makecat fits_open c rerun keepcat verbose) in
  (starlist c' = starlist c /\ mindist c' = mindist c
   /\ xlim c' = xlim c /\ ylim c' = ylim c
   /\ quadlist c' = quadlist c /\ quadlevel c' = quadlevel c
   /\ name c' = name c /\ filepath c' = filepath c /\ hdu c' = hdu c)
  /\ (o <> Returned tt -> c' = c)
  /\ (forall e, fits_open (filepath c) = Raised e -> o = Raised e)
  /\ (forall hdus, fits_open (filepath c) = Returned hdus ->
      if (List.length hdus <? 3)%nat
      then o = Raised "IndexError"%string
      else o = Returned tt /\ nth_error hdus 2 = Some (cat c')).
Proof.
  unfold makecat.
  destruct (fits_open (filepath c)) as [hdus|e].
  - destruct hdus as [|h0 [|h1 [|h2 rest]]]; cbn.
    4:{ split; [repeat split|]. split; [congruence|]. split; [discriminate|].
        intros hdus H. injection H as <-. cbn. split; reflexivity. }
    all: split; [repeat split|]; split; [reflexivity|]; split; [discriminate|];
      intros hdus H; injection H as <-; reflexivity.
  - cbn. split; [repeat split|]. split; [reflexivity|]. split.
    + intros e' H. now injection H as <-.
    + discriminate.
Qed.

(** X16.  The catalog that [makecat] installs depends on the path alone: two
    objects for the same path end with the same raw catalog and the same
    outcome, whatever HDU and catalog each was constructed with. *)
Theorem makecat_ignores_hdu
  (fits_open : FitsOpen) (path : string) (h1 h2 : Z)
  (cat1 cat2 : option Catalog) (r1 k1 v1 r2 k2 v2 : bool) :
  let run1 := makecat fits_open (init path h1 cat1) r1 k1 v1 in
  let run2 := makecat fits_open (init path h2 cat2) r2 k2 v2 in
  snd run1 = snd run2
  /\ (snd run1 = Returned tt -> cat (fst run1) = cat (fst run2)).
Proof.
  assert (forall h mycat, filepath (init path h mycat) = path) as Hpath.
  { intros h mycat. unfold init.
    destruct (os_path_split path) as [imgdir filename].
    now destruct (os_path_splitext filename). }
  unfold makecat. rewrite !Hpath.
  destruct (fits_open path) as [hdus|e]; [|split; [reflexivity|discriminate]].
  destruct (nth_error hdus 2) as [data|]; cbn;
    split; try reflexivity; discriminate.
Qed.

(** ** Any sequence of calls *)

Section RunInvariant.

Variable St : StarOps.
Variable Q : QuadOps.
Variable fits_open : FitsOpen.

Lemma makecat_fields (c : ImgCat) (r k v : bool) :
  let c' := fst (makecat fits_open c r k v) in
  quadlevel c' = quadlevel c /\ name c' = name c
  /\ filepath c' = filepath c /\ hdu c' = hdu c.
Proof.
  unfold makecat. destruct (fits_open (filepath c)) as [hdus|e];
    [destruct (nth_error hdus 2)|]; cbn; repeat split.
Qed.

Lemma makestarlist_fields (c : ImgCat) (s : bool) (n : Z) :
  let c' := fst (makestarlist St c s n) in
  quadlevel c' = quadlevel c /\ name c' = name c
  /\ filepath c' = filepath c /\ hdu c' = hdu c.
Proof.
  unfold makestarlist.
  destruct (readsexcat St (cat c) None) as [raw|e]; [|cbn; repeat split].
  destruct (area St _ _) as [[[[xmin xmax] ymin] ymax]|e]; cbn; repeat split.
Qed.

Lemma makemorequads_fields (c : ImgCat) :
  let c' := snd (makemorequads Q c) in
  name c' = name c /\ filepath c' = filepath c /\ hdu c' = hdu c.
Proof.
  destruct (makemorequads_cases Q c) as [[_ E]|[_ E]]; rewrite E;
    cbn; repeat split.
Qed.

Lemma run_fields (calls : list call) (c : ImgCat) :
  0 <= quadlevel c <= 5 ->
  let c' := run St Q fits_open calls c in
  quadlevel c'
  = Z.min (quadlevel c + Z.of_nat (List.length (filter is_escalation calls))) 5
  /\ name c' = name c /\ filepath c' = filepath c /\ hdu c' = hdu c.
Proof.
  revert c. induction calls as [|k calls IH]; intros c Hl.
  - cbn. repeat split. lia.
  - cbn [run fold_left]. fold (run St Q fits_open calls (perform St Q fits_open c k)).
    destruct k as [r kc v|s n|]; cbn [perform filter is_escalation].
    + destruct (makecat_fields c r kc v) as [E1 [E2 [E3 E4]]].
      destruct (IH (fst (makecat fits_open c r kc v))) as [F1 [F2 [F3 F4]]];
        [lia|]. cbn zeta in *. rewrite F1, F2, F3, F4, E1, E2, E3, E4.
      repeat split.
    + destruct (makestarlist_fields c s n) as [E1 [E2 [E3 E4]]].
      destruct (IH (fst (makestarlist St c s n))) as [F1 [F2 [F3 F4]]];
        [lia|]. cbn zeta in *. rewrite F1, F2, F3, F4, E1, E2, E3, E4.
      repeat split.
    + destruct (makemorequads_fields c) as [E2 [E3 E4]].
      pose proof (makemorequads_level Q c Hl) as E1.
      destruct (IH (snd (makemorequads Q c))) as [F1 [F2 [F3 F4]]];
        [lia|]. cbn zeta in *. rewrite F1, F2, F3, F4, E1, E2, E3, E4.
      cbn [List.length]. repeat split. lia.
Qed.

(** X17.  Whatever methods are called on a new catalog, in whatever order and
    whether they return or raise, its quad level is the number of
    [makemorequads] calls made, capped at 5; and its name, path and HDU
    stay those of the construction. *)
Theorem run_level_and_identity
  (calls : list call) (path : string) (h : Z) (mycat : option Catalog) :
  let c0 := init path h mycat in
  let c := run St Q fits_open calls c0 in
  quadlevel c
  = Z.min (Z.of_nat (List.length (filter is_escalation calls))) 5
  /\ name c = name c0 /\ filepath c = path /\ hdu c = h.
Proof.
  intros c0 c.
  assert (quadlevel c0 = 0 /\ filepath c0 = path /\ hdu c0 = h) as [E0 [E1 E2]].
  { unfold c0, init. destruct (os_path_split path) as [imgdir filename].
    destruct (os_path_splitext filename). cbn. repeat split. }
  destruct (run_fields calls c0) as [F1 [F2 [F3 F4]]]; [lia|].
  cbn zeta in *. fold c in F1, F2, F3, F4.
  rewrite F1, F2, F3, F4, E0, E1, E2. repeat split.
Qed.

End RunInvariant.
